(** * configenv: the environment store of the config plugin

    A shallow embedding of [plugins/config/src/configenv/configenv.go].

    Go strings are byte sequences; they are embedded as [string] (a list of
    8-bit [ascii] characters).  The Go [map[string]string] is a
    [gmap string string].  Methods with a pointer receiver that mutate the
    receiver become functions returning the updated [Env]. *)

From Stdlib Require Import ZArith Ascii String.
From stdpp Require Import gmap strings list sorting fin_maps.

Open Scope string_scope.
Open Scope list_scope.
Open Scope stdpp_scope.

(** The constructor of non-empty strings, under a name that stays available
    once the method [String] of [Env] is declared. *)
Abbreviation scons := String.String.

(** ** Go values *)

(** The [error] values that occur: [errors.New msg], an error reported by the
    operating system or by an [io.Writer], and the errors of the parser and
    of [archive/tar].  A Go [error] that may be [nil] is an [option error]. *)
Inductive error : Type :=
| errors_New (msg : string)
| ioError (cause : string)
| parseError (line : string)
| ErrWriteTooLong
| ErrWriteAfterClose.

Definition newline : ascii := "010"%char.
Definition quote : ascii := "'"%char.

(** ** The package [strings] *)

(** [strings.Replace(s, old, new, -1)] for a one-byte [old]: every occurrence
    of the byte is replaced, from left to right. *)
Fixpoint Replace (s : string) (old : ascii) (new : string) : string :=
  match s with
  | "" => ""
  | scons c r =>
      if Ascii.eqb c old then new +:+ Replace r old new
      else scons c (Replace r old new)
  end.

(** [strings.Join(elems, sep)]. *)
Fixpoint Join (elems : list string) (sep : string) : string :=
  match elems with
  | [] => ""
  | [x] => x
  | x :: rest => x +:+ sep +:+ Join rest sep
  end.

(** [sort.Strings]: the ascending arrangement of its argument in the
    byte-wise lexicographic order of Go's [<] on strings, which is
    [String.le]. *)
Definition sort_Strings (l : list string) : list string :=
  merge_sort String.le l.

(** ** The type [Env] *)

Record Env : Type := mkEnv {
  name : string;
  env : gmap string string;
  filename : string;
  EscapeNewlines : bool
}.

(** [e.env[k]]: indexing a Go map gives the zero value for an absent key. *)
Definition index (m : gmap string string) (k : string) : string :=
  default "" (m !! k).

(** [Set]. *)
Definition Set_ (e : Env) (key value : string) : Env :=
  mkEnv (name e) (<[key := value]> (env e)) (filename e) (EscapeNewlines e).

Definition Unset (e : Env) (key : string) : Env :=
  mkEnv (name e) (delete key (env e)) (filename e) (EscapeNewlines e).

(** The body of [Keys] for a [range] over the map that yields the keys in the
    order [iter]: Go leaves the iteration order of a map unspecified. *)
Definition KeysFrom (iter : list string) : list string :=
  sort_Strings iter.

Definition Keys (e : Env) : list string :=
  KeysFrom (map_to_list (env e)).*1.

Definition Get (e : Env) (key : string) : string * bool :=
  match env e !! key with
  | Some v => (v, true)
  | None => ("", false)
  end.

Definition GetDefault (e : Env) (key defaultValue : string) : string :=
  match env e !! key with
  | Some v => v
  | None => defaultValue
  end.

Definition GetBoolDefault (e : Env) (key : string) (defaultValue : bool) : bool :=
  let '(v, ok) := Get e key in
  if negb ok then defaultValue
  else negb (String.eqb v "0").

Definition Len (e : Env) : nat := size (env e).

Definition Map (e : Env) : gmap string string := env e.

(** [Merge]: the loop over [other.Keys()]. *)
Definition Merge (e other : Env) : Env :=
  foldl (fun e k => Set_ e k (GetDefault other k "")) e (Keys other).

(** ** Serialization *)

Definition SingleQuoteEscape (value : string) : string :=
  Replace value quote "'\''".

(** The value of one entry as the loop body of
    [StringWithPrefixAndSeparator] computes it. *)
Definition entryValue (e : Env) (k : string) : string :=
  let v := SingleQuoteEscape (index (env e) k) in
  if EscapeNewlines e then Replace v newline "'$'\n''" else v.

(** [fmt.Sprintf("%s%s='%s'", prefix, k, v)]. *)
Definition entryLine (e : Env) (prefix k : string) : string :=
  prefix +:+ k +:+ "='" +:+ entryValue e k +:+ "'".

Definition StringWithPrefixAndSeparator (e : Env) (prefix separator : string) : string :=
  let keys := Keys e in
  let entries := map (entryLine e prefix) keys in
  Join entries separator.

Definition EnvfileString (e : Env) : string :=
  StringWithPrefixAndSeparator e "" (scons newline "").

Definition ExportfileString (e : Env) : string :=
  StringWithPrefixAndSeparator e "export " (scons newline "").

Definition String (e : Env) : string :=
  EnvfileString e.

(** ** Persistence: [Write]

    The file system is outside the program.  Its state is the content of
    every file together with the record of the calls made to it; whether a
    call fails is decided by the environment, a value of type [OS]. *)

Inductive fsCall : Type :=
| callCreate (path : string)
| callWriteString (path data : string)
| callClose (path : string).

Record FS : Type := mkFS {
  files : gmap string string;
  calls : list fsCall
}.

Record OS : Type := mkOS {
  (** the error of [os.Create path], if it fails *)
  createError : FS -> string -> option error;
  (** [file.WriteString data] fails after writing [n] bytes with [err] *)
  writeError : FS -> string -> string -> option (nat * error);
  (** the error of [file.Close()], if it fails *)
  closeError : FS -> string -> option error
}.

(** Prefix of [n] bytes of a string. *)
Definition firstBytes (n : nat) (s : string) : string := String.substring 0 n s.

(** [os.Create]: creates the file or truncates it; the handle is [nil]
    (here [None]) when it fails. *)
Definition os_Create (os : OS) (path : string) (fs : FS)
  : option string * option error * FS :=
  let tr := calls fs ++ [callCreate path] in
  match createError os fs path with
  | Some err => (None, Some err, mkFS (files fs) tr)
  | None => (Some path, None, mkFS (<[path := ""]> (files fs)) tr)
  end.

(** [File.WriteString] on an open handle. *)
Definition File_WriteString (os : OS) (file : string) (data : string) (fs : FS)
  : option error * FS :=
  let tr := calls fs ++ [callWriteString file data] in
  let old := index (files fs) file in
  match writeError os fs file data with
  | Some (n, err) => (Some err, mkFS (<[file := old +:+ firstBytes n data]> (files fs)) tr)
  | None => (None, mkFS (<[file := old +:+ data]> (files fs)) tr)
  end.

(** [File.Close]: on a [nil] handle it returns an error without touching
    the file system; its result is dropped by the [defer] in [Write]. *)
Definition File_Close (os : OS) (file : option string) (fs : FS) : option error * FS :=
  match file with
  | None => (Some (ioError "invalid argument"), fs)
  | Some path => (closeError os fs path, mkFS (files fs) (calls fs ++ [callClose path]))
  end.

Definition errUnbound : error := errors_New "this Env was created unbound to a file".

Definition Write (os : OS) (e : Env) (fs : FS) : option error * FS :=
  if String.eqb (filename e) "" then (Some errUnbound, fs)
  else
    let '(file, err, fs) := os_Create os (filename e) fs in
    match err, file with
    | None, Some f =>
        let '(err, fs) := File_WriteString os f (ExportfileString e) fs in
        (err, snd (File_Close os file fs))
    | _, _ => (err, snd (File_Close os file fs))
    end.

(** ** Archive export: [ExportBundle]

    [archive/tar] is a library of Go, modelled through the contract of
    [tar.Writer] for headers of regular files.  The byte layout of the
    format is not part of the model: the destination receives the archive
    as a sequence of blocks, [headerBlock h] for the header records of [h]
    and [dataBlock b] for the content bytes [b] of the current entry; the
    end-of-archive marker is [trailerBlock]. *)

Record tar_Header : Type := mkHeader {
  Name : string;
  Mode : Z;
  Size : Z
}.

Inductive tar_block : Type :=
| headerBlock (h : tar_Header)
| dataBlock (b : string)
| trailerBlock.

(** An [io.Writer]: what it has accepted so far, and the error with which it
    refuses a block given what it has accepted.  A refused block is not
    written. *)
Record io_Writer : Type := mkWriter {
  written : list tar_block;
  refuses : list tar_block -> tar_block -> option error
}.

Definition io_Write (w : io_Writer) (b : tar_block) : option error * io_Writer :=
  match refuses w (written w) b with
  | Some err => (Some err, w)
  | None => (None, mkWriter (written w ++ [b]) (refuses w))
  end.

(** [tar.Writer]: the destination, the bytes the current entry still
    expects, and the sticky error. *)
Record tar_Writer : Type := mkTar {
  tw_w : io_Writer;
  tw_nb : Z;
  tw_err : option error
}.

Definition tar_NewWriter (dest : io_Writer) : tar_Writer := mkTar dest 0 None.

Definition tar_WriteHeader (tw : tar_Writer) (hdr : tar_Header) : option error * tar_Writer :=
  match tw_err tw with
  | Some err => (Some err, tw)
  | None =>
      if (0 <? tw_nb tw)%Z then (Some (ioError "archive/tar: missed writing bytes"), tw)
      else
        let '(err, w) := io_Write (tw_w tw) (headerBlock hdr) in
        match err with
        | Some _ => (err, mkTar w (tw_nb tw) err)
        | None => (None, mkTar w (Size hdr) None)
        end
  end.

Definition tar_Write (tw : tar_Writer) (b : string) : option error * tar_Writer :=
  match tw_err tw with
  | Some err => (Some err, tw)
  | None =>
      let len := Z.of_nat (String.length b) in
      let overwrite := (tw_nb tw <? len)%Z in
      let b := if overwrite then firstBytes (Z.to_nat (tw_nb tw)) b else b in
      let '(err, w) :=
        if String.eqb b "" then (None, tw_w tw) else io_Write (tw_w tw) (dataBlock b) in
      match err with
      | Some _ => (err, mkTar w (tw_nb tw) err)
      | None =>
          let nb := (tw_nb tw - Z.of_nat (String.length b))%Z in
          (if overwrite then Some ErrWriteTooLong else None, mkTar w nb None)
      end
  end.

(** [Close] writes the end-of-archive marker unless an error is pending;
    afterwards the writer is closed, and closing it again does nothing. *)
Definition tar_Close (tw : tar_Writer) : option error * tar_Writer :=
  match tw_err tw with
  | Some ErrWriteAfterClose => (None, tw)
  | Some err => (Some err, tw)
  | None =>
      if (0 <? tw_nb tw)%Z then
        (Some (ioError "archive/tar: missed writing bytes"),
         mkTar (tw_w tw) (tw_nb tw) (Some ErrWriteAfterClose))
      else
        let '(err, w) := io_Write (tw_w tw) trailerBlock in
        (err, mkTar w (tw_nb tw) (Some ErrWriteAfterClose))
  end.

(** Owner read-write only: octal 0600. *)
Definition mode_0600 : Z := 6 * 8 * 8.

(** One iteration of the loop of [ExportBundle]: the results of
    [WriteHeader] and [Write] are dropped. *)
Definition exportEntry (e : Env) (tarfile : tar_Writer) (k : string) : tar_Writer :=
  let '(val, _) := Get e k in
  let valbin := val in
  let header := mkHeader k mode_0600 (Z.of_nat (String.length valbin)) in
  let tarfile := snd (tar_WriteHeader tarfile header) in
  snd (tar_Write tarfile valbin).

Definition ExportBundle (e : Env) (dest : io_Writer) : option error * io_Writer :=
  let tarfile := tar_NewWriter dest in
  let tarfile := foldl (exportEntry e) tarfile (Keys e) in
  (None, tw_w (snd (tar_Close tarfile))).



(** A destination whose every write fails. *)
Definition brokenWriter : io_Writer :=
  mkWriter [] (fun _ _ => Some (ioError "broken pipe")).

(** ** Parsing: [NewFromString] *)

(** Number of occurrences of a byte in a string. *)
Fixpoint countByte (c : ascii) (s : string) : nat :=
  match s with
  | "" => 0
  | scons d r => (if Ascii.eqb d c then 1 else 0) + countByte c r
  end.

Definition contains (c : ascii) (s : string) : bool :=
  negb (Nat.eqb (countByte c s) 0).

(** [s] without the prefix [p], when [s] starts with [p]. *)
Fixpoint stripPrefix (p s : string) : option string :=
  match p, s with
  | "", _ => Some s
  | scons _ _, "" => None
  | scons a p', scons b s' => if Ascii.eqb a b then stripPrefix p' s' else None
  end.

(** The physical lines of a text: its pieces between newline bytes.  The
    parser reads its input line by line. *)
Fixpoint splitLines (s : string) : list string :=
  match s with
  | "" => [""]
  | scons c r =>
      if Ascii.eqb c newline then "" :: splitLines r
      else match splitLines r with
           | [] => [scons c ""]
           | w :: ws => scons c w :: ws
           end
  end.

(** Modelled from the spec: the recognition of a blank line by the parser,
    whose code ([parseEnvFromReader]) is not among the sources.  A line is
    blank when it has only spaces, tabs and carriage returns. *)
Fixpoint isBlank (line : string) : bool :=
  match line with
  | "" => true
  | scons c r =>
      (Ascii.eqb c " " || Ascii.eqb c "009" || Ascii.eqb c "013")%char && isBlank r
  end.

(** Modelled from the spec: the optional leading [export ] token of a line
    of the absent parser: it is dropped and has no other effect. *)
Definition dropExport (line : string) : string :=
  match stripPrefix "export " line with
  | Some rest => rest
  | None => line
  end.

(** Modelled from the spec: the split of [KEY='...'] at its first [=] by
    the absent parser; [None] when the line has no [=]. *)
Fixpoint cutKey (line : string) : option (string * string) :=
  match line with
  | "" => None
  | scons c r =>
      if Ascii.eqb c "="%char then Some ("", r)
      else match cutKey r with
           | Some (k, rest) => Some (scons c k, rest)
           | None => None
           end
  end.

(** Modelled from the spec: the inverse of single-quote escaping in the
    absent parser.  The argument is what follows the opening quote: bytes
    other than a quote stand for themselves, the sequence quote, backslash,
    quote, quote stands for one quote, and a quote that ends the line closes
    the value; anything else does not have the expected shape. *)
Fixpoint unquote (s : string) : option string :=
  match s with
  | "" => None
  | scons c r =>
      if Ascii.eqb c quote then
        match r with
        | "" => Some ""
        | scons c1 (scons c2 (scons c3 r')) =>
            if (Ascii.eqb c1 "\" && Ascii.eqb c2 quote && Ascii.eqb c3 quote)%char
            then option_map (scons quote) (unquote r')
            else None
        | _ => None
        end
      else option_map (scons c) (unquote r)
  end.

(** Modelled from the spec: one line of the absent parser.  A blank line
    gives no assignment; a line [[export ]KEY='value'] gives its key and its
    unescaped value; any other line is a parse error that carries the line. *)
Definition parseLine (line : string) : error + option (string * string) :=
  if isBlank line then inr None
  else
    match cutKey (dropExport line) with
    | Some (scons c k, scons q body) =>
        if Ascii.eqb q quote then
          match unquote body with
          | Some v => inr (Some (scons c k, v))
          | None => inl (parseError line)
          end
        else inl (parseError line)
    | _ => inl (parseError line)
    end.

(** Modelled from the spec: the loop of the absent parser over the lines of
    its input; every assignment sets its key, and parsing halts at the first
    malformed line. *)
Fixpoint parseLines (lines : list string) (m : gmap string string)
  : error + gmap string string :=
  match lines with
  | [] => inr m
  | l :: rest =>
      match parseLine l with
      | inl err => inl err
      | inr None => parseLines rest m
      | inr (Some (k, v)) => parseLines rest (<[k := v]> m)
      end
  end.

(** Modelled from the spec: [parseEnvFromReader], which is not among the
    sources.  The reader is the text it yields; the result is bound to
    [filename] and carries [name]. *)
Definition parseEnvFromReader (name filename : string) (reader : string) : error + Env :=
  match parseLines (splitLines reader) ∅ with
  | inl err => inl err
  | inr m => inr (mkEnv name m filename false)
  end.

Definition NewFromString (rep : string) : error + Env :=
  parseEnvFromReader "<unknown>" "" rep.

(** A key that a line of the plain format carries unchanged: not empty,
    without [=] and newline, and not starting with the [export ] token. *)
Definition plainKey (k : string) : bool :=
  negb (String.eqb k "") && negb (contains "="%char k) && negb (contains newline k)
  && negb (bool_decide (is_Some (stripPrefix "export " k))).

(** ** Definitions used to state the properties *)

(** A sequence of calls of [Set], one for each pair, from left to right. *)
Definition insertAll (e : Env) (l : list (string * string)) : Env :=
  foldl (fun e kv => Set_ e kv.1 kv.2) e l.


(** Environments on which the properties are evaluated. *)

Definition receiverAB : Env := mkEnv "app" (<["A" := "1"]> (<["B" := "2"]> ∅)) "" false.
Definition otherBC : Env := mkEnv "other" (<["B" := "9"]> (<["C" := "3"]> ∅)) "" false.

Definition emptyEnv : Env := mkEnv "" ∅ "" false.


Definition envA : Env := mkEnv "app" (<["A" := "x"]> ∅) "" false.



Definition envExportKey : Env := mkEnv "app" (<["export A" := "x"]> ∅) "" false.

Definition envQuoted : Env :=
  mkEnv "app" (<["export" := ""]> (<["MSG" := "it's a 'test'"]> ∅)) "/home/dokku/app/ENV" true.

(** ** Target resolution: [NewFromTarget]

    [common.VerifyAppName], [common.MustGetEnv] and [parseEnv] are code that
    is not among the sources, and [filepath.Join] is Go's library: the
    functions below take them as parameters.  [VerifyAppName] gives the
    error of an invalid name; [MustGetEnv] gives the value of a variable of
    the process, or [None] when the call does not return; [parseEnv] reads a
    file, so it runs on the state of the file system.  A result [None] of
    the functions below stands for a call that does not return. *)

Section target.
Variable VerifyAppName : string -> option error.
Variable MustGetEnv : string -> option string.
Variable filepath_Join : list string -> string.
Variable parseEnv : string -> string -> FS -> (error + Env) * FS.

Definition getAppFile (appName : string) : option (string * option error) :=
  match VerifyAppName appName with
  | Some err => Some ("", Some err)
  | None =>
      match MustGetEnv "DOKKU_ROOT" with
      | Some root => Some (filepath_Join [root; appName; "ENV"], None)
      | None => None
      end
  end.

Definition getGlobalFile : option string :=
  match MustGetEnv "DOKKU_ROOT" with
  | Some root => Some (filepath_Join [root; "ENV"])
  | None => None
  end.

Definition LoadApp (appName : string) (fs : FS) : option ((error + Env) * FS) :=
  match getAppFile appName with
  | Some (appfile, None) => Some (parseEnv appName appfile fs)
  | Some (_, Some err) => Some (inl err, fs)
  | None => None
  end.

Definition LoadGlobal (fs : FS) : option ((error + Env) * FS) :=
  match getGlobalFile with
  | Some globalfile => Some (parseEnv "global" globalfile fs)
  | None => None
  end.

Definition NewFromTarget (target : string) (fs : FS) : option ((error + Env) * FS) :=
  if String.eqb target "--global" then LoadGlobal fs
  else LoadApp target fs.
End target.

(** The file a call to the file system is about. *)
Definition callPath (c : fsCall) : string :=
  match c with
  | callCreate path => path
  | callWriteString path _ => path
  | callClose path => path
  end.

(** [envQuoted] built anew by two calls of [Set], under another name. *)
Definition envQuotedCopy : Env :=
  Set_ (Set_ (mkEnv "copy" ∅ "" false) "export" "") "MSG" "it's a 'test'".


(** * Properties *)

(** ** Evaluations *)

Example escape_example : SingleQuoteEscape "it's" = "it'\''s".
Proof. reflexivity. Qed.

Example keys_example :
  Keys (Set_ (Set_ (Set_ (mkEnv "" ∅ "" false) "b" "1") "a" "2") "B" "3") = ["B"; "a"; "b"].
Proof. vm_compute. reflexivity. Qed.

Example parse_empty_example : NewFromString "" = inr (mkEnv "<unknown>" ∅ "" false).
Proof. reflexivity. Qed.

Example parse_malformed_example : NewFromString "A=x" = inl (parseError "A=x").
Proof. reflexivity. Qed.

Example export_example :
  ExportfileString envQuoted = "export MSG='it'\''s a '\''test'\'''
export export=''".
Proof. vm_compute. reflexivity. Qed.

Example order_example : String.le "B" "a" /\ String.le "a" "ab" /\ ~ String.le "b" "a".
Proof. vm_compute. tauto. Qed.

Example parse_example :
  NewFromString "A='x'
export B='it'\''s'

C=''" = inr (mkEnv "<unknown>" (<["C" := ""]> (<["B" := "it's"]> (<["A" := "x"]> ∅))) "" false).
Proof. vm_compute. reflexivity. Qed.

(** ** Strings *)

Section string_facts.
Implicit Types (s a b : string) (c d : ascii).

Lemma append_nil_l s : "" +:+ s = s.
Proof. reflexivity. Qed.

Lemma append_cons c a b : scons c a +:+ b = scons c (a +:+ b).
Proof. reflexivity. Qed.

Lemma append_nil_r s : s +:+ "" = s.
Proof. induction s as [|c s IH]; [reflexivity|]. rewrite append_cons, IH. reflexivity. Qed.

Lemma append_assoc a b s : (a +:+ b) +:+ s = a +:+ (b +:+ s).
Proof.
  induction a as [|c a IH]; [reflexivity|].
  rewrite !append_cons, IH. reflexivity.
Qed.

Lemma countByte_append c a b : countByte c (a +:+ b) = countByte c a + countByte c b.
Proof.
  induction a as [|d a IH]; [reflexivity|].
  rewrite append_cons. simpl. rewrite IH. lia.
Qed.

Lemma contains_false c s : contains c s = false <-> countByte c s = 0.
Proof.
  unfold contains. destruct (Nat.eqb_spec (countByte c s) 0); simpl; split; congruence.
Qed.

Lemma contains_true c s : contains c s = true <-> 0 < countByte c s.
Proof.
  unfold contains. destruct (Nat.eqb_spec (countByte c s) 0); simpl; split;
    try congruence; lia.
Qed.

(** The occurrences of a byte after a replacement. *)
Lemma countByte_Replace c s old new :
  countByte c (Replace s old new)
  = countByte old s * countByte c new
    + (if Ascii.eqb c old then 0 else countByte c s).
Proof.
  induction s as [|d s IH]; simpl.
  - destruct (Ascii.eqb c old); reflexivity.
  - destruct (Ascii.eqb_spec d old) as [->|Hd]; simpl.
    + rewrite countByte_append, IH.
      destruct (Ascii.eqb_spec c old) as [->|Hc].
      * lia.
      * destruct (Ascii.eqb_spec old c); [congruence|]. lia.
    + rewrite IH.
      destruct (Ascii.eqb_spec c old) as [->|Hc].
      * destruct (Ascii.eqb_spec d old); [congruence|]. lia.
      * destruct (Ascii.eqb d c); lia.
Qed.

(** A replacement leaves a string without the byte as it is. *)
Lemma Replace_absent s old new : countByte old s = 0 -> Replace s old new = s.
Proof.
  induction s as [|d s IH]; simpl; [reflexivity|].
  destruct (Ascii.eqb d old); [discriminate|].
  intros H. rewrite IH by exact H. reflexivity.
Qed.

Lemma Replace_append a b old new :
  Replace (a +:+ b) old new = Replace a old new +:+ Replace b old new.
Proof.
  induction a as [|d a IH]; [reflexivity|].
  rewrite append_cons. simpl. rewrite IH.
  destruct (Ascii.eqb d old); [rewrite append_assoc|rewrite append_cons]; reflexivity.
Qed.

Lemma length_append a b : String.length (a +:+ b) = String.length a + String.length b.
Proof.
  induction a as [|d a IH]; [reflexivity|].
  rewrite append_cons. simpl. rewrite IH. reflexivity.
Qed.
End string_facts.

Lemma countByte_quote_SingleQuoteEscape value :
  countByte quote (SingleQuoteEscape value) = 3 * countByte quote value.
Proof.
  unfold SingleQuoteEscape. rewrite countByte_Replace, Ascii.eqb_refl.
  change (countByte quote "'\''") with 3. lia.
Qed.

Lemma countByte_newline_SingleQuoteEscape value :
  countByte newline (SingleQuoteEscape value) = countByte newline value.
Proof.
  unfold SingleQuoteEscape. rewrite countByte_Replace.
  change (countByte newline "'\''") with 0.
  change (Ascii.eqb newline quote) with false. lia.
Qed.

(** ** C2: single-quote escaping *)

(** C2. [SingleQuoteEscape] turns a single quote into the four bytes quote,
    backslash, quote, quote, leaves every other byte as it is, and works byte
    by byte (it distributes over concatenation); [it's] becomes [it'\''s];
    escaping an escaped value again gives the same string only when the
    value has no quote: on a value with a quote the second application
    yields a different, longer string. *)
Theorem SingleQuoteEscape_spec :
  (forall c : ascii,
      SingleQuoteEscape (scons c "") = if Ascii.eqb c quote then "'\''" else scons c "")
  /\ (forall a b : string,
         SingleQuoteEscape (a +:+ b) = SingleQuoteEscape a +:+ SingleQuoteEscape b)
  /\ SingleQuoteEscape "" = ""
  /\ SingleQuoteEscape "it's" = "it'\''s"
  /\ (forall value : string,
         String.length (SingleQuoteEscape value)
         = String.length value + 3 * countByte quote value)
  /\ (forall value : string,
         SingleQuoteEscape (SingleQuoteEscape value) = SingleQuoteEscape value
         <-> contains quote value = false)
  /\ (forall value : string,
         String.length (SingleQuoteEscape (SingleQuoteEscape value))
         = String.length (SingleQuoteEscape value) + 9 * countByte quote value).
Proof.
  assert (Hlen : forall value, String.length (SingleQuoteEscape value)
                               = String.length value + 3 * countByte quote value).
  { intros value. unfold SingleQuoteEscape.
    induction value as [|d s IH]; [reflexivity|]. simpl.
    destruct (Ascii.eqb d quote).
    - rewrite length_append, IH. simpl. lia.
    - simpl. rewrite IH. lia. }
  split; [|split; [|split; [|split; [|split; [|split]]]]].
  - intros c. unfold SingleQuoteEscape. simpl. destruct (Ascii.eqb c quote); reflexivity.
  - intros a b. apply Replace_append.
  - reflexivity.
  - reflexivity.
  - apply Hlen.
  - intros value. split.
    + intros Heq. apply contains_false.
      apply (f_equal (countByte quote)) in Heq.
      rewrite !countByte_quote_SingleQuoteEscape in Heq. lia.
    + intros Hno. apply contains_false in Hno.
      assert (Hid : SingleQuoteEscape value = value)
        by (apply Replace_absent, Hno).
      rewrite !Hid. reflexivity.
  - intros value. rewrite Hlen, countByte_quote_SingleQuoteEscape. lia.
Qed.

(** ** C5: the boolean reading of a variable *)

(** C5. [GetBoolDefault] gives the default for an absent key, [false] for a
    stored value that is exactly ["0"], and [true] for every other stored
    value, the empty string, ["false"] and ["no"] among them. *)
Theorem GetBoolDefault_spec (e : Env) (key : string) (defaultValue : bool) :
  GetBoolDefault e key defaultValue
  = match env e !! key with
    | None => defaultValue
    | Some v => if decide (v = "0") then false else true
    end
  /\ GetBoolDefault (Set_ e key "0") key true = false
  /\ GetBoolDefault (Set_ e key "") key false = true
  /\ GetBoolDefault (Set_ e key "false") key false = true
  /\ GetBoolDefault (Set_ e key "no") key false = true
  /\ GetBoolDefault (Unset e key) key defaultValue = defaultValue.
Proof.
  unfold GetBoolDefault, Get, Set_, Unset; simpl.
  rewrite !lookup_insert_eq, lookup_delete_eq.
  split; [|repeat split].
  destruct (env e !! key) as [v|]; simpl; [|reflexivity].
  destruct (String.eqb_spec v "0"), (decide (v = "0")); simpl; congruence.
Qed.

(** ** C10: the default rendering *)

(** C10. [String] is [EnvfileString]: the lines [KEY='value'] of the keys in
    ascending order, joined by newlines, with no [export ] prefix. *)
Theorem String_is_EnvfileString (e : Env) :
  String e = EnvfileString e
  /\ String e
     = Join (map (fun k => k +:+ "='" +:+ entryValue e k +:+ "'") (Keys e))
            (scons newline "")
  /\ (forall k v, Keys e = [k] -> env e !! k = Some v -> EscapeNewlines e = false ->
        String e = k +:+ "='" +:+ SingleQuoteEscape v +:+ "'").
Proof.
  split; [reflexivity|]. split; [reflexivity|].
  intros k v Hk Hv Hf.
  unfold String, EnvfileString, StringWithPrefixAndSeparator.
  rewrite Hk. simpl. unfold entryLine, entryValue, index. rewrite Hv, Hf. reflexivity.
Qed.

(** ** The keys of an environment *)

(** The order of [sort.Strings] is lexicographic on the bytes, compared by
    their codes: the empty string comes first, and two non-empty strings
    compare by their first bytes, then by their rests. *)
Lemma String_le_nil (t : string) : String.le "" t.
Proof. destruct t; exact I. Qed.

Lemma String_le_cons_nil (a : ascii) (s : string) : ~ String.le (scons a s) "".
Proof. intros H. exact H. Qed.

Lemma String_le_cons (a b : ascii) (s t : string) :
  String.le (scons a s) (scons b t)
  <-> (N_of_ascii a < N_of_ascii b)%N \/ (a = b /\ String.le s t).
Proof.
  unfold String.le, String.leb. simpl. unfold Ascii.compare.
  destruct (N.compare_spec (N_of_ascii a) (N_of_ascii b)) as [Heq|Hlt|Hgt].
  - assert (Hab : a = b).
    { rewrite <- (ascii_N_embedding a), <- (ascii_N_embedding b), Heq. reflexivity. }
    split; [intros H; right; by split|]. intros [Hlt|[_ H]]; [lia|exact H].
  - split; [by left|intros _; exact I].
  - split; [intros []|]. intros [Hlt|[-> _]]; lia.
Qed.

Lemma Keys_Permutation (e : Env) : Keys e ≡ₚ (map_to_list (env e)).*1.
Proof. apply merge_sort_Permutation. Qed.

Lemma Keys_Sorted (e : Env) : StronglySorted String.le (Keys e).
Proof. apply StronglySorted_merge_sort; apply _. Qed.

Lemma Keys_NoDup (e : Env) : NoDup (Keys e).
Proof. rewrite Keys_Permutation. apply NoDup_fst_map_to_list. Qed.

Lemma elem_of_Keys (e : Env) (k : string) : k ∈ Keys e <-> is_Some (env e !! k).
Proof.
  rewrite Keys_Permutation, list_elem_of_fmap. split.
  - intros [[k' v] [-> Hin]]. apply elem_of_map_to_list in Hin. eauto.
  - intros [v Hv]. exists (k, v). split; [reflexivity|]. by apply elem_of_map_to_list.
Qed.

Lemma Keys_length (e : Env) : length (Keys e) = Len e.
Proof.
  rewrite Keys_Permutation, length_fmap. unfold Len. apply length_map_to_list.
Qed.

(** The result of [Keys] does not depend on the order in which the map is
    traversed. *)
Lemma KeysFrom_Permutation (e : Env) (iter : list string) :
  iter ≡ₚ (map_to_list (env e)).*1 -> KeysFrom iter = Keys e.
Proof.
  intros Hperm. unfold Keys, KeysFrom, sort_Strings.
  apply (Sorted_unique String.le).
  - apply Sorted_merge_sort; apply _.
  - apply Sorted_merge_sort; apply _.
  - rewrite !merge_sort_Permutation. exact Hperm.
Qed.

Lemma Set_commute (e : Env) (k1 v1 k2 v2 : string) :
  k1 <> k2 -> Set_ (Set_ e k1 v1) k2 v2 = Set_ (Set_ e k2 v2) k1 v1.
Proof.
  intros Hne. unfold Set_; simpl. f_equal. apply insert_insert_ne. congruence.
Qed.

Lemma insertAll_Permutation (l1 l2 : list (string * string)) :
  l1 ≡ₚ l2 -> NoDup l1.*1 -> forall e, insertAll e l1 = insertAll e l2.
Proof.
  induction 1 as [|x l l' Hperm IH|x y l|l l' l'' H1 IH1 H2 IH2]; intros Hnd e.
  - reflexivity.
  - simpl. apply IH. by inversion Hnd.
  - simpl. apply (f_equal (fun e' => insertAll e' l)).
    apply Set_commute. simpl in Hnd. inversion Hnd as [|? ? Hnotin _]; subst.
    intros Heq. apply Hnotin. rewrite Heq. left.
  - rewrite IH1 by exact Hnd. apply IH2. rewrite <- H1. exact Hnd.
Qed.

(** ** C4: keys in ascending order *)

(** C4. Whatever the order in which distinct keys were set, and whatever the
    order in which the map is traversed, [Keys] returns every stored key,
    once, in ascending byte-wise lexicographic order; both textual formats
    list the entries in that order, so they depend on the content only. *)
Theorem Keys_ascending (e : Env) (l1 l2 : list (string * string)) (iter : list string) :
  NoDup l1.*1 -> l1 ≡ₚ l2 -> iter ≡ₚ (map_to_list (env (insertAll e l1))).*1 ->
  let e1 := insertAll e l1 in
  let e2 := insertAll e l2 in
  StronglySorted String.le (Keys e1)
  /\ NoDup (Keys e1)
  /\ (forall k, k ∈ Keys e1 <-> is_Some (env e1 !! k))
  /\ KeysFrom iter = Keys e1
  /\ Keys e2 = Keys e1
  /\ (forall prefix separator,
        StringWithPrefixAndSeparator e1 prefix separator
        = Join (map (entryLine e1 prefix) (Keys e1)) separator)
  /\ EnvfileString e2 = EnvfileString e1
  /\ ExportfileString e2 = ExportfileString e1.
Proof.
  intros Hnd Hperm Hiter e1 e2.
  assert (He : e2 = e1).
  { symmetry. by apply insertAll_Permutation. }
  rewrite He.
  split; [apply Keys_Sorted|]. split; [apply Keys_NoDup|].
  split; [apply elem_of_Keys|]. split; [by apply KeysFrom_Permutation|].
  repeat split.
Qed.

Lemma Keys_ascending_witness :
  NoDup [("b", "1"); ("a", "2"); ("B", "3")].*1
  /\ [("b", "1"); ("a", "2"); ("B", "3")] ≡ₚ [("a", "2"); ("b", "1"); ("B", "3")]
  /\ Keys (insertAll emptyEnv [("b", "1"); ("a", "2"); ("B", "3")]) = ["B"; "a"; "b"]
  /\ Keys (insertAll emptyEnv [("a", "2"); ("b", "1"); ("B", "3")]) = ["B"; "a"; "b"]
  /\ KeysFrom ["b"; "a"; "B"] = ["B"; "a"; "b"].
Proof.
  assert (Hnd : NoDup [("b", "1"); ("a", "2"); ("B", "3")].*1).
  { simpl. repeat (apply NoDup_cons; split; [rewrite ?elem_of_cons, elem_of_nil; intuition discriminate|]).
    apply NoDup_nil_2. }
  assert (Hperm : [("b", "1"); ("a", "2"); ("B", "3")] ≡ₚ [("a", "2"); ("b", "1"); ("B", "3")])
    by apply perm_swap.
  assert (Hiter : ["b"; "a"; "B"]
                  ≡ₚ (map_to_list (env (insertAll emptyEnv
                                          [("b", "1"); ("a", "2"); ("B", "3")]))).*1).
  { vm_compute. apply perm_swap. }
  destruct (Keys_ascending emptyEnv _ _ _ Hnd Hperm Hiter) as (_ & _ & _ & Hk & H2 & _).
  split; [exact Hnd|]. split; [exact Hperm|].
  assert (H1 : Keys (insertAll emptyEnv [("b", "1"); ("a", "2"); ("B", "3")])
               = ["B"; "a"; "b"]) by (vm_compute; reflexivity).
  split; [exact H1|]. split; [rewrite H2; exact H1|rewrite Hk; exact H1].
Defined.

(** ** C6: merging *)

Lemma lookup_foldl_Set (other : Env) (ks : list string) (e : Env) (k : string) :
  env (foldl (fun e k => Set_ e k (GetDefault other k "")) e ks) !! k
  = if decide (k ∈ ks) then Some (GetDefault other k "") else env e !! k.
Proof.
  induction ks as [|x ks IH] using rev_ind.
  - simpl. destruct (decide (k ∈ [])) as [Hin|]; [by apply elem_of_nil in Hin|reflexivity].
  - rewrite foldl_app. simpl. destruct (decide (x = k)) as [->|Hne].
    + rewrite lookup_insert_eq. rewrite decide_True; [reflexivity|].
      apply elem_of_app. right. left.
    + rewrite lookup_insert_ne by exact Hne. rewrite IH.
      destruct (decide (k ∈ ks)) as [Hin|Hnin].
      * rewrite decide_True; [reflexivity|]. apply elem_of_app. by left.
      * rewrite decide_False; [reflexivity|].
        rewrite elem_of_app, list_elem_of_singleton. intros [?|?]; congruence.
Qed.

Lemma foldl_Set_fields (other : Env) (ks : list string) (e : Env) :
  let r := foldl (fun e k => Set_ e k (GetDefault other k "")) e ks in
  name r = name e /\ filename r = filename e /\ EscapeNewlines r = EscapeNewlines e.
Proof.
  revert e. induction ks as [|x ks IH]; intros e; simpl; [done|].
  destruct (IH (Set_ e x (GetDefault other x ""))) as (-> & -> & ->). done.
Qed.

Lemma lookup_Merge (e other : Env) (k : string) :
  env (Merge e other) !! k
  = match env other !! k with Some v => Some v | None => env e !! k end.
Proof.
  unfold Merge. rewrite lookup_foldl_Set.
  destruct (decide (k ∈ Keys other)) as [Hin|Hnin].
  - apply elem_of_Keys in Hin as [v Hv]. unfold GetDefault. rewrite Hv. reflexivity.
  - destruct (env other !! k) as [v|] eqn:Hv; [|reflexivity].
    exfalso. apply Hnin, elem_of_Keys. eauto.
Qed.

(** C6. After [Merge] the receiver has, for every key of [other], the value
    of [other], and for every other key the value it had: the union of the
    two maps in which [other] wins.  [{A:1, B:2}] merged with [{B:9, C:3}]
    is [{A:1, B:9, C:3}]. *)
Theorem Merge_spec (e other : Env) :
  (forall k, env (Merge e other) !! k
             = match env other !! k with Some v => Some v | None => env e !! k end)
  /\ env (Merge e other) = env other ∪ env e
  /\ name (Merge e other) = name e
  /\ filename (Merge e other) = filename e
  /\ EscapeNewlines (Merge e other) = EscapeNewlines e
  /\ env (Merge receiverAB otherBC) = <["A" := "1"]> (<["B" := "9"]> (<["C" := "3"]> ∅)).
Proof.
  split; [apply lookup_Merge|].
  split.
  { apply map_eq. intros k. rewrite lookup_Merge, lookup_union.
    destruct (env other !! k), (env e !! k); reflexivity. }
  destruct (foldl_Set_fields other (Keys other) e) as (Hn & Hf & Hesc).
  split; [exact Hn|]. split; [exact Hf|]. split; [exact Hesc|].
  vm_compute. reflexivity.
Qed.

(** ** C7: writing back *)

(** C7. Without a backing path [Write] returns the not-bound error and the
    file system is as before: no call reached it.  With a backing path it
    creates (truncates) that file and writes the export format to it: the
    error of the creation, or else the error of the write, is what [Write]
    returns, and after a run without error the file holds exactly
    [ExportfileString]. *)
Theorem Write_spec (os : OS) (e : Env) (fs : FS) :
  let path := filename e in
  let data := ExportfileString e in
  let created := mkFS (<[path := ""]> (files fs)) (calls fs ++ [callCreate path]) in
  let trace := calls fs ++ [callCreate path; callWriteString path data; callClose path] in
  Write os e fs
  = if decide (path = "") then (Some errUnbound, fs)
    else match createError os fs path with
         | Some err => (Some err, mkFS (files fs) (calls fs ++ [callCreate path]))
         | None =>
             match writeError os created path data with
             | Some (n, err) =>
                 (Some err, mkFS (<[path := firstBytes n data]> (files fs)) trace)
             | None => (None, mkFS (<[path := data]> (files fs)) trace)
             end
         end.
Proof.
  intros path data created trace. unfold Write. fold path.
  destruct (String.eqb_spec path "") as [Hp|Hp].
  - rewrite decide_True by exact Hp. reflexivity.
  - rewrite decide_False by exact Hp.
    unfold os_Create. fold path.
    destruct (createError os fs path) as [err|]; simpl; [reflexivity|].
    unfold File_WriteString. fold data created.
    assert (Hidx : index (files created) path = "").
    { unfold index, created. simpl. rewrite lookup_insert_eq. reflexivity. }
    rewrite Hidx.
    assert (Htrace : (calls fs ++ [callCreate path])
                     ++ [callWriteString path data] ++ [callClose path] = trace).
    { unfold trace. rewrite <- app_assoc. reflexivity. }
    destruct (writeError os created path data) as [[n err]|]; simpl;
      rewrite insert_insert_eq, append_nil_l, <- Htrace, <- !app_assoc; reflexivity.
Qed.

(** ** C8 and C9: the archive *)






(** C9. [ExportBundle] returns [nil] whatever happens to the writes: on a
    destination that refuses every write, the header of the first entry
    fails with the error of the destination, nothing is written, and the
    result is still [nil]. *)
Theorem ExportBundle_drops_write_errors :
  (forall (e : Env) (dest : io_Writer), fst (ExportBundle e dest) = None)
  /\ fst (tar_WriteHeader (tar_NewWriter brokenWriter) (mkHeader "A" mode_0600 1))
     = Some (ioError "broken pipe")
  /\ fst (ExportBundle envA brokenWriter) = None
  /\ written (snd (ExportBundle envA brokenWriter)) = [].
Proof.
  split; [reflexivity|]. split; [reflexivity|]. split; [reflexivity|].
  vm_compute. reflexivity.
Qed.

(** ** Physical lines *)



Lemma splitLines_single (s : string) : countByte newline s = 0 -> splitLines s = [s].
Proof.
  induction s as [|c s IH]; simpl; [reflexivity|].
  destruct (Ascii.eqb c newline); [discriminate|].
  intros H. rewrite IH by exact H. reflexivity.
Qed.

Lemma splitLines_append_newline (a r : string) :
  countByte newline a = 0 ->
  splitLines (a +:+ scons newline r) = a :: splitLines r.
Proof.
  induction a as [|c a IH]; [reflexivity|].
  rewrite append_cons. simpl.
  destruct (Ascii.eqb c newline); [discriminate|].
  intros H. rewrite IH by exact H. reflexivity.
Qed.

(** The lines of entries without newline, joined by newlines, are the
    entries. *)
Lemma splitLines_Join (ls : list string) :
  ls <> [] -> Forall (fun l => countByte newline l = 0) ls ->
  splitLines (Join ls (scons newline "")) = ls.
Proof.
  induction ls as [|x ls IH]; [congruence|].
  intros _ Hall. apply Forall_cons in Hall as [Hx Hls].
  destruct ls as [|y ls].
  - simpl. by apply splitLines_single.
  - change (Join (x :: y :: ls) (scons newline ""))
      with (x +:+ scons newline (Join (y :: ls) (scons newline ""))).
    rewrite splitLines_append_newline by exact Hx.
    rewrite IH by (try discriminate; exact Hls). reflexivity.
Qed.

Lemma countByte_entryValue (e : Env) (k : string) :
  countByte newline (entryValue e k)
  = if EscapeNewlines e then 0 else countByte newline (index (env e) k).
Proof.
  unfold entryValue. destruct (EscapeNewlines e).
  - rewrite countByte_Replace. change (countByte newline "'$'\n''") with 0.
    rewrite Ascii.eqb_refl. lia.
  - apply countByte_newline_SingleQuoteEscape.
Qed.

Lemma countByte_entryLine (e : Env) (prefix k : string) :
  countByte newline (entryLine e prefix k)
  = countByte newline prefix + countByte newline k + countByte newline (entryValue e k).
Proof.
  unfold entryLine. rewrite !countByte_append.
  change (countByte newline "='") with 0. change (countByte newline "'") with 0. lia.
Qed.

(** ** C3: newlines in values *)




(** ** C1: serializing and parsing back *)

Lemma unquote_SingleQuoteEscape (v : string) :
  unquote (SingleQuoteEscape v +:+ "'") = Some v.
Proof.
  unfold SingleQuoteEscape. induction v as [|c v IH]; [reflexivity|].
  simpl. destruct (Ascii.eqb_spec c quote) as [->|Hc].
  - change ("'\''" +:+ Replace v quote "'\''") with
      (scons quote (scons "\"%char (scons quote (scons quote (Replace v quote "'\''"))))).
    rewrite !append_cons. simpl. rewrite IH. reflexivity.
  - rewrite append_cons. simpl.
    destruct (Ascii.eqb_spec c quote); [congruence|]. rewrite IH. reflexivity.
Qed.

Lemma cutKey_append (k rest : string) :
  countByte "="%char k = 0 -> cutKey (k +:+ scons "="%char rest) = Some (k, rest).
Proof.
  induction k as [|c k IH]; [reflexivity|].
  rewrite append_cons. simpl.
  destruct (Ascii.eqb c "="); [discriminate|].
  intros H. rewrite IH by exact H. reflexivity.
Qed.

Lemma isBlank_append_eq (k rest : string) : isBlank (k +:+ scons "="%char rest) = false.
Proof.
  induction k as [|c k IH]; [reflexivity|].
  rewrite append_cons. simpl. rewrite IH. apply andb_false_r.
Qed.

Lemma stripPrefix_append_eq (p k rest : string) :
  countByte "="%char p = 0 -> stripPrefix p k = None ->
  stripPrefix p (k +:+ scons "="%char rest) = None.
Proof.
  revert k. induction p as [|a p IH]; intros k Hp Hk; [discriminate|].
  simpl in Hp. destruct (Ascii.eqb_spec a "="%char) as [Ha|Ha]; [discriminate|].
  destruct k as [|b k].
  - simpl. destruct (Ascii.eqb_spec a "="%char); [congruence|reflexivity].
  - rewrite append_cons. simpl in *.
    destruct (Ascii.eqb a b); [|reflexivity]. apply IH; [exact Hp|exact Hk].
Qed.

Lemma plainKey_inv (k : string) :
  plainKey k = true ->
  k <> "" /\ countByte "="%char k = 0 /\ countByte newline k = 0
  /\ stripPrefix "export " k = None.
Proof.
  unfold plainKey. rewrite !andb_true_iff, !negb_true_iff.
  intros [[[Hne Heq] Hnl] Hex].
  split; [by apply String.eqb_neq|].
  split; [by apply contains_false|].
  split; [by apply contains_false|].
  apply bool_decide_eq_false in Hex.
  destruct (stripPrefix "export " k); [|reflexivity].
  exfalso. apply Hex. eauto.
Qed.

(** The parser reads the line of a plain key back as the key and the
    value. *)
Lemma parseLine_entry (k v : string) :
  plainKey k = true ->
  parseLine (k +:+ "='" +:+ SingleQuoteEscape v +:+ "'") = inr (Some (k, v)).
Proof.
  intros Hk. apply plainKey_inv in Hk as (Hne & Heq & _ & Hex).
  change (k +:+ "='" +:+ SingleQuoteEscape v +:+ "'")
    with (k +:+ scons "="%char (scons quote (SingleQuoteEscape v +:+ "'"))).
  unfold parseLine. rewrite isBlank_append_eq.
  unfold dropExport. rewrite stripPrefix_append_eq by (try reflexivity; exact Hex).
  rewrite cutKey_append by exact Heq.
  destruct k as [|c k]; [congruence|].
  rewrite Ascii.eqb_refl, unquote_SingleQuoteEscape. reflexivity.
Qed.

Lemma entryValue_plain (e : Env) (k : string) :
  countByte newline (index (env e) k) = 0 ->
  entryValue e k = SingleQuoteEscape (index (env e) k).
Proof.
  intros Hnl. unfold entryValue. destruct (EscapeNewlines e); [|reflexivity].
  apply Replace_absent. rewrite countByte_newline_SingleQuoteEscape. exact Hnl.
Qed.

Lemma parseLines_entries (e : Env) (ks : list string) (acc : Env) :
  Forall (fun k => plainKey k = true /\ countByte newline (index (env e) k) = 0) ks ->
  parseLines (map (entryLine e "") ks) (env acc)
  = inr (env (foldl (fun a k => Set_ a k (GetDefault e k "")) acc ks)).
Proof.
  revert acc. induction ks as [|k ks IH]; intros acc Hall; [reflexivity|].
  apply Forall_cons in Hall as [[Hk Hnl] Hks].
  cbn [map parseLines foldl]. unfold entryLine at 1.
  rewrite append_nil_l, entryValue_plain by exact Hnl.
  rewrite parseLine_entry by exact Hk.
  change (<[k := index (env e) k]> (env acc)) with (env (Set_ acc k (index (env e) k))).
  rewrite IH by exact Hks.
  replace (GetDefault e k "") with (index (env e) k); [reflexivity|].
  unfold GetDefault, index. destruct (env e !! k); reflexivity.
Qed.

(** C1, as stated, fails: the key [export A] with the value [x] is written
    as the line [export A='x'], which is read back as the key [A]. *)
Lemma roundtrip_fails_on_export_key :
  EnvfileString envExportKey = "export A='x'"
  /\ NewFromString (EnvfileString envExportKey)
     = inr (mkEnv "<unknown>" (<["A" := "x"]> ∅) "" false)
  /\ ~ (exists e', NewFromString (EnvfileString envExportKey) = inr e'
                   /\ env e' = env envExportKey).
Proof.
  assert (Hparse : NewFromString (EnvfileString envExportKey)
                   = inr (mkEnv "<unknown>" (<["A" := "x"]> ∅) "" false))
    by (vm_compute; reflexivity).
  split; [vm_compute; reflexivity|]. split; [exact Hparse|].
  intros (e' & He' & Henv). rewrite Hparse in He'. injection He' as <-.
  apply (f_equal (fun m : gmap string string => m !! "A")) in Henv.
  vm_compute in Henv. discriminate.
Qed.

(** C1, amended.  For an environment whose keys are plain (not empty, without
    [=] and newline, not starting with [export ]) and whose values have no
    newline, parsing the plain format gives back an unbound environment with
    the same keys and the same values. *)
Theorem roundtrip_plain (e : Env) :
  (forall k v, env e !! k = Some v -> plainKey k = true /\ contains newline v = false) ->
  NewFromString (EnvfileString e) = inr (mkEnv "<unknown>" (env e) "" false)
  /\ exists e', NewFromString (EnvfileString e) = inr e' /\ env e' = env e.
Proof.
  intros Hplain.
  assert (Hall : Forall (fun k => plainKey k = true
                                  /\ countByte newline (index (env e) k) = 0) (Keys e)).
  { apply Forall_forall. intros k Hk. apply elem_of_Keys in Hk as [v Hv].
    destruct (Hplain k v Hv) as [Hpk Hnl]. split; [exact Hpk|].
    unfold index. rewrite Hv. by apply contains_false. }
  assert (Hmain : parseLines (splitLines (EnvfileString e)) ∅ = inr (env e)).
  { unfold EnvfileString, StringWithPrefixAndSeparator.
    destruct (decide (Keys e = [])) as [Hkeys|Hkeys].
    - rewrite Hkeys. simpl. f_equal. symmetry. apply map_size_empty_inv.
      pose proof (Keys_length e) as Hlen. rewrite Hkeys in Hlen. symmetry. exact Hlen.
    - rewrite splitLines_Join.
      + pose proof (parseLines_entries e (Keys e) (mkEnv "" ∅ "" false) Hall) as Hp.
        simpl in Hp. rewrite Hp. f_equal.
        apply map_eq. intros k.
        change (foldl (fun a k => Set_ a k (GetDefault e k "")) (mkEnv "" ∅ "" false) (Keys e))
          with (Merge (mkEnv "" ∅ "" false) e).
        rewrite lookup_Merge. simpl. rewrite lookup_empty.
        destruct (env e !! k); reflexivity.
      + intros Hnil. apply Hkeys. by apply fmap_nil_inv in Hnil.
      + apply Forall_fmap. eapply Forall_impl; [exact Hall|].
        intros k [Hpk Hnl]. simpl.
        rewrite countByte_entryLine, countByte_entryValue.
        apply plainKey_inv in Hpk as (_ & _ & Hknl & _).
        change (countByte newline "") with 0. rewrite Hknl, Hnl.
        destruct (EscapeNewlines e); reflexivity. }
  assert (Hret : NewFromString (EnvfileString e) = inr (mkEnv "<unknown>" (env e) "" false)).
  { unfold NewFromString, parseEnvFromReader. rewrite Hmain. reflexivity. }
  split; [exact Hret|]. eexists. split; [exact Hret|reflexivity].
Qed.

Lemma roundtrip_plain_witness :
  EnvfileString envQuoted = "MSG='it'\''s a '\''test'\'''
export=''"
  /\ NewFromString (EnvfileString envQuoted)
     = inr (mkEnv "<unknown>" (env envQuoted) "" false).
Proof.
  split; [vm_compute; reflexivity|].
  apply (roundtrip_plain envQuoted).
  intros k v Hkv.
  assert (Hin : (k, v) ∈ map_to_list (env envQuoted)) by (by apply elem_of_map_to_list).
  vm_compute in Hin.
  repeat (apply elem_of_cons in Hin as [Hin|Hin]; [injection Hin as -> ->; vm_compute; split; reflexivity|]).
  by apply elem_of_nil in Hin.
Defined.

(** * Further properties of the store *)

(** ** [Set], [Unset] and [Get] *)

Lemma Env_eta (e : Env) : mkEnv (name e) (env e) (filename e) (EscapeNewlines e) = e.
Proof. destruct e; reflexivity. Qed.

(** X1. A variable that was set is found with the value it was set to, the
    other variables are found as before, the last of two values set for a
    key is the one that stays, and setting a variable to the value it has
    changes nothing. *)
Theorem Get_Set (e : Env) (key value : string) :
  (forall k, Get (Set_ e key value) k = if decide (key = k) then (value, true) else Get e k)
  /\ (forall d, GetDefault (Set_ e key value) key d = value)
  /\ (forall v0, Set_ (Set_ e key v0) key value = Set_ e key value)
  /\ (env e !! key = Some value -> Set_ e key value = e)
  /\ name (Set_ e key value) = name e
  /\ filename (Set_ e key value) = filename e
  /\ EscapeNewlines (Set_ e key value) = EscapeNewlines e.
Proof.
  split.
  { intros k. unfold Get, Set_; simpl. destruct (decide (key = k)) as [->|Hne].
    - rewrite lookup_insert_eq. reflexivity.
    - rewrite lookup_insert_ne by exact Hne. reflexivity. }
  split.
  { intros d. unfold GetDefault, Set_; simpl. rewrite lookup_insert_eq. reflexivity. }
  split.
  { intros v0. unfold Set_; simpl. rewrite insert_insert_eq. reflexivity. }
  split; [|repeat split].
  intros Hv. unfold Set_. rewrite insert_id by exact Hv. apply Env_eta.
Qed.

(** X2. After [Unset] the key is not found and the other variables are
    found as before; removing a key that is not there changes nothing, and
    removing a key that was just set undoes the [Set] (and gives back the
    environment when the key was not there before). *)
Theorem Get_Unset (e : Env) (key : string) :
  (forall k, Get (Unset e key) k = if decide (key = k) then ("", false) else Get e k)
  /\ (forall d, GetDefault (Unset e key) key d = d)
  /\ (env e !! key = None -> Unset e key = e)
  /\ Unset (Unset e key) key = Unset e key
  /\ (forall v, Unset (Set_ e key v) key = Unset e key)
  /\ (forall v, env e !! key = None -> Unset (Set_ e key v) key = e).
Proof.
  assert (Habsent : env e !! key = None -> Unset e key = e).
  { intros Hk. unfold Unset. rewrite delete_id by exact Hk. apply Env_eta. }
  assert (Hset : forall v, Unset (Set_ e key v) key = Unset e key).
  { intros v. unfold Unset, Set_; simpl. rewrite delete_insert_eq. reflexivity. }
  split.
  { intros k. unfold Get, Unset; simpl. destruct (decide (key = k)) as [->|Hne].
    - rewrite lookup_delete_eq. reflexivity.
    - rewrite lookup_delete_ne by exact Hne. reflexivity. }
  split.
  { intros d. unfold GetDefault, Unset; simpl. rewrite lookup_delete_eq. reflexivity. }
  split; [exact Habsent|].
  split.
  { unfold Unset; simpl. rewrite delete_delete_eq. reflexivity. }
  split; [exact Hset|].
  intros v Hk. rewrite Hset. apply Habsent, Hk.
Qed.

(** X3. [Len] counts the keys: it grows by one when a new key is set, stays
    when an existing key is set again, shrinks by one when an existing key is
    removed, and is zero exactly for the environment without variables. *)
Theorem Len_Set_Unset (e : Env) (key value : string) :
  Len (Set_ e key value) = (if snd (Get e key) then Len e else S (Len e))
  /\ Len (Unset e key) = (if snd (Get e key) then Len e - 1 else Len e)
  /\ Len e = length (Keys e)
  /\ (Len e = 0 <-> env e = ∅)
  /\ (Len e = 0 <-> Keys e = []).
Proof.
  unfold Len, Get, Set_, Unset; simpl.
  split.
  { rewrite map_size_insert. destruct (env e !! key); reflexivity. }
  split.
  { rewrite map_size_delete. destruct (env e !! key); simpl; lia. }
  split; [symmetry; apply Keys_length|].
  split; [apply map_size_empty_iff|].
  pose proof (Keys_length e) as Hlen. unfold Len in Hlen. rewrite <- Hlen.
  destruct (Keys e); simpl; split; (congruence || lia || discriminate).
Qed.

(** ** [Keys] after [Set] and [Unset] *)

Lemma StronglySorted_filter_le (P : string -> Prop) `{forall x, Decision (P x)}
    (l : list string) :
  StronglySorted String.le l -> StronglySorted String.le (filter P l).
Proof.
  induction 1 as [|x l Hl IH Hx]; [constructor|].
  rewrite filter_cons. destruct (decide (P x)); [|exact IH].
  constructor; [exact IH|].
  apply Forall_forall. intros y Hy. apply list_elem_of_filter in Hy as [_ Hy].
  rewrite Forall_forall in Hx. by apply Hx.
Qed.

Lemma filter_Forall_id (P : string -> Prop) `{forall x, Decision (P x)} (l : list string) :
  Forall P l -> filter P l = l.
Proof.
  induction 1 as [|x l Hx Hl IH]; [reflexivity|].
  rewrite filter_cons_True by exact Hx. by rewrite IH.
Qed.

(** A list of keys in ascending order and a permutation of the keys of an
    environment is the result of [Keys]. *)
Lemma Keys_unique (e : Env) (l : list string) :
  StronglySorted String.le l -> l ≡ₚ (map_to_list (env e)).*1 -> Keys e = l.
Proof.
  intros Hsorted Hperm. apply (StronglySorted_unique String.le).
  - apply Keys_Sorted.
  - exact Hsorted.
  - by rewrite Keys_Permutation.
Qed.

(** X4. [Unset] removes its key, and only it, from the list of keys; [Set]
    of a key that is there leaves the list as it is, and [Set] of a new key
    puts it at its place in the order: after the keys below it and before
    the keys above it. *)
Theorem Keys_Set_Unset (e : Env) (key value : string) :
  Keys (Unset e key) = filter (fun k => k <> key) (Keys e)
  /\ (is_Some (env e !! key) -> Keys (Set_ e key value) = Keys e)
  /\ (env e !! key = None ->
      Keys (Set_ e key value)
      = filter (fun k => String.le k key) (Keys e)
        ++ key :: filter (fun k => ~ String.le k key) (Keys e)).
Proof.
  split; [|split].
  - apply Keys_unique.
    + apply StronglySorted_filter_le, Keys_Sorted.
    + unfold Unset; simpl. destruct (env e !! key) as [v|] eqn:Hk.
      * assert (Hperm : Keys e ≡ₚ key :: (map_to_list (delete key (env e))).*1).
        { rewrite Keys_Permutation, <- (map_to_list_delete _ _ _ Hk). reflexivity. }
        assert (Hnotin : key ∉ (map_to_list (delete key (env e))).*1).
        { pose proof (Keys_NoDup e) as Hnd. rewrite Hperm in Hnd.
          by apply NoDup_cons in Hnd as [? _]. }
        rewrite Hperm, filter_cons_False by (intros Hne; by apply Hne).
        rewrite filter_Forall_id; [reflexivity|].
        apply Forall_forall. intros k Hin ->. by apply Hnotin.
      * rewrite delete_id by exact Hk. rewrite <- Keys_Permutation.
        rewrite filter_Forall_id; [reflexivity|].
        apply Forall_forall. intros k Hin ->.
        apply elem_of_Keys in Hin as [v Hv]. congruence.
  - intros [v Hv]. apply Keys_unique; [apply Keys_Sorted|].
    rewrite Keys_Permutation. unfold Set_; simpl.
    rewrite <- (insert_id (env e) key v Hv) at 1.
    rewrite <- (insert_delete_eq (env e)), <- (insert_delete_eq (env e) key value).
    rewrite !map_to_list_insert by apply lookup_delete_eq. reflexivity.
  - intros Hk. apply Keys_unique.
    + apply StronglySorted_app. split; [|split].
      * intros x1 x2 Hx1 Hx2. apply list_elem_of_filter in Hx1 as [Hle1 _].
        apply elem_of_cons in Hx2 as [->|Hx2]; [exact Hle1|].
        apply list_elem_of_filter in Hx2 as [Hnle _].
        transitivity key; [exact Hle1|].
        destruct (total String.le key x2) as [Hle|Hle]; [exact Hle|contradiction].
      * apply StronglySorted_filter_le, Keys_Sorted.
      * constructor; [apply StronglySorted_filter_le, Keys_Sorted|].
        apply Forall_forall. intros x Hx. apply list_elem_of_filter in Hx as [Hnle _].
        destruct (total String.le key x) as [Hle|Hle]; [exact Hle|contradiction].
    + unfold Set_; simpl. rewrite (map_to_list_insert _ _ _ Hk). csimpl.
      rewrite <- Permutation_middle. apply perm_skip.
      rewrite <- Keys_Permutation. apply filter_app_complement.
Qed.

(** ** The algebra of [Merge] *)

(** [Merge] as one update of the map: the variables of [other] laid over
    those of the receiver. *)
Lemma Merge_eq (e other : Env) :
  Merge e other
  = mkEnv (name e) (env other ∪ env e) (filename e) (EscapeNewlines e).
Proof.
  destruct (foldl_Set_fields other (Keys other) e) as (Hn & Hf & Hesc).
  fold (Merge e other) in Hn, Hf, Hesc.
  rewrite <- (Env_eta (Merge e other)), Hn, Hf, Hesc. f_equal.
  apply map_eq. intros k. rewrite lookup_Merge, lookup_union.
  destruct (env other !! k), (env e !! k); reflexivity.
Qed.

(** X5. Merging the same environment twice is merging it once, merging an
    environment into itself changes nothing, merging an environment without
    variables changes nothing, and merging into an environment without
    variables gives the variables of the other. *)
Theorem Merge_idempotent (e other : Env) :
  Merge (Merge e other) other = Merge e other
  /\ Merge e e = e
  /\ (env other = ∅ -> Merge e other = e)
  /\ (env e = ∅ -> env (Merge e other) = env other).
Proof.
  split; [|split; [|split]].
  - rewrite !Merge_eq; simpl. f_equal.
    rewrite (assoc_L (∪)), (idemp_L (∪)). reflexivity.
  - rewrite Merge_eq, (idemp_L (∪)). apply Env_eta.
  - intros Hempty. rewrite Merge_eq, Hempty, (left_id_L ∅ (∪)). apply Env_eta.
  - intros Hempty. rewrite Merge_eq; simpl. rewrite Hempty, (right_id_L ∅ (∪)). reflexivity.
Qed.

(** X6. [Merge] is associative: merging [b] and then [c] into [a] gives the
    environment that merging into [a] the result of merging [c] into [b]
    gives. *)
Theorem Merge_assoc (a b c : Env) :
  Merge (Merge a b) c = Merge a (Merge b c).
Proof.
  rewrite !Merge_eq; simpl. f_equal. apply (assoc_L (∪)).
Qed.

(** X7. The keys of a merged environment are the keys of the receiver and
    the keys of the other: no variable is lost, and the number of variables
    is at least that of either and at most their sum. *)
Theorem Merge_Keys_Len (e other : Env) :
  (forall k, k ∈ Keys (Merge e other) <-> k ∈ Keys e \/ k ∈ Keys other)
  /\ Len e <= Len (Merge e other)
  /\ Len other <= Len (Merge e other)
  /\ Len (Merge e other) <= Len e + Len other.
Proof.
  split.
  { intros k. rewrite !elem_of_Keys, Merge_eq; simpl.
    rewrite lookup_union_is_Some. tauto. }
  unfold Len. rewrite Merge_eq; simpl.
  rewrite <- !(size_dom (D := gset string)), dom_union_L.
  split; [apply subseteq_size; set_solver|].
  split; [apply subseteq_size; set_solver|].
  rewrite size_union_alt.
  assert (Hle : size (dom (env e) ∖ dom (env other)) <= size (dom (env e))).
  { apply subseteq_size. intros x [Hx _]%elem_of_difference. exact Hx. }
  lia.
Qed.

(** X8. Reading a merged environment is reading the other and falling back
    on the receiver: for [Get] on the keys of the other, and for
    [GetDefault] and [GetBoolDefault] with the receiver's answer as the
    default. *)
Theorem Merge_lookups (e other : Env) (key : string) :
  (forall d, GetDefault (Merge e other) key d = GetDefault other key (GetDefault e key d))
  /\ (forall d, GetBoolDefault (Merge e other) key d
                = GetBoolDefault other key (GetBoolDefault e key d))
  /\ Get (Merge e other) key = (if snd (Get other key) then Get other key else Get e key).
Proof.
  unfold GetDefault, GetBoolDefault, Get. rewrite lookup_Merge.
  destruct (env other !! key), (env e !! key); simpl; repeat split.
Qed.

(** X9. The two orders of merging give the same variables exactly when the
    two environments agree on the keys they share. *)
Theorem Merge_comm_iff (a b : Env) :
  env (Merge a b) = env (Merge b a)
  <-> (forall k v w, env a !! k = Some v -> env b !! k = Some w -> v = w).
Proof.
  split.
  - intros Heq k v w Ha Hb.
    apply (f_equal (fun m : gmap string string => m !! k)) in Heq.
    rewrite !lookup_Merge, Ha, Hb in Heq. congruence.
  - intros Hagree. apply map_eq. intros k. rewrite !lookup_Merge.
    destruct (env a !! k) as [v|] eqn:Ha, (env b !! k) as [w|] eqn:Hb; try reflexivity.
    f_equal. symmetry. by eapply Hagree.
Qed.

(** X10. [Merge] is a sequence of [Set] calls, one for each variable of the
    other, and the order of the calls does not matter. *)
Theorem Merge_as_Sets (e other : Env) (l : list (string * string)) :
  l ≡ₚ map_to_list (env other) -> insertAll e l = Merge e other.
Proof.
  intros Hperm.
  assert (Hnd : NoDup l.*1).
  { rewrite Hperm. apply NoDup_fst_map_to_list. }
  set (pairs := (fun k => (k, GetDefault other k "")) <$> Keys other).
  assert (Hmerge : Merge e other = insertAll e pairs).
  { unfold Merge, insertAll, pairs. rewrite foldl_fmap. reflexivity. }
  rewrite Hmerge. apply insertAll_Permutation; [|exact Hnd].
  assert (Hpairs : (fun k => (k, GetDefault other k "")) <$> (map_to_list (env other)).*1
                   = map_to_list (env other)).
  { rewrite <- list_fmap_compose.
    rewrite <- (list_fmap_id (map_to_list (env other))) at 2.
    apply Forall_fmap_ext_1, Forall_forall.
    intros [k v] Hin. apply elem_of_map_to_list in Hin.
    simpl. unfold GetDefault. rewrite Hin. reflexivity. }
  rewrite Hperm. unfold pairs. rewrite Keys_Permutation, Hpairs. reflexivity.
Qed.

Lemma Merge_as_Sets_witness :
  [("B", "9"); ("C", "3")] ≡ₚ map_to_list (env otherBC)
  /\ insertAll receiverAB [("B", "9"); ("C", "3")] = Merge receiverAB otherBC.
Proof.
  assert (Hperm : [("B", "9"); ("C", "3")] ≡ₚ map_to_list (env otherBC)).
  { vm_compute. apply perm_swap. }
  split; [exact Hperm|]. exact (Merge_as_Sets receiverAB otherBC _ Hperm).
Defined.

(** * Further properties of the serialization *)

(** ** Values are written without loss *)

(** The value of an entry with [EscapeNewlines] set, byte by byte. *)
Lemma escape_newlines_cons (c : ascii) (v : string) :
  Replace (SingleQuoteEscape (scons c v)) newline "'$'\n''"
  = Replace (SingleQuoteEscape (scons c "")) newline "'$'\n''"
    +:+ Replace (SingleQuoteEscape v) newline "'$'\n''".
Proof.
  change (scons c v) with (scons c "" +:+ v).
  unfold SingleQuoteEscape. rewrite !Replace_append. reflexivity.
Qed.

(** No byte is written as the beginning of what another byte is written
    as: what follows the first byte of a value can be told from the text. *)
Lemma escape_newlines_head (c d : ascii) (x y : string) :
  Replace (SingleQuoteEscape (scons c "")) newline "'$'\n''" +:+ x
  = Replace (SingleQuoteEscape (scons d "")) newline "'$'\n''" +:+ y ->
  c = d /\ x = y.
Proof.
  unfold SingleQuoteEscape. simpl.
  destruct (Ascii.eqb_spec c quote) as [->|Hcq], (Ascii.eqb_spec d quote) as [->|Hdq];
    simpl;
    try destruct (Ascii.eqb_spec c newline) as [->|Hcn];
    try destruct (Ascii.eqb_spec d newline) as [->|Hdn];
    rewrite !append_cons, !append_nil_l; intros H;
    try discriminate H;
    injection H; intros;
    first [ split; [reflexivity | assumption]
          | split; assumption
          | exfalso; apply Hcq; assumption
          | exfalso; apply Hdq; symmetry; assumption ].
Qed.

Lemma escape_newlines_nonempty (c : ascii) (x : string) :
  Replace (SingleQuoteEscape (scons c "")) newline "'$'\n''" +:+ x <> "".
Proof.
  unfold SingleQuoteEscape. simpl.
  destruct (Ascii.eqb c quote); simpl; [rewrite append_cons; discriminate|].
  destruct (Ascii.eqb c newline); rewrite append_cons; discriminate.
Qed.

Lemma escape_newlines_inj (a b : string) :
  Replace (SingleQuoteEscape a) newline "'$'\n''"
  = Replace (SingleQuoteEscape b) newline "'$'\n''" -> a = b.
Proof.
  revert b. induction a as [|c a IH]; intros [|d b] H.
  - reflexivity.
  - rewrite escape_newlines_cons in H. symmetry in H.
    by apply escape_newlines_nonempty in H.
  - rewrite escape_newlines_cons in H. by apply escape_newlines_nonempty in H.
  - rewrite (escape_newlines_cons c a), (escape_newlines_cons d b) in H.
    apply escape_newlines_head in H as [-> H].
    f_equal. by apply IH.
Qed.

Lemma SingleQuoteEscape_inj (a b : string) :
  SingleQuoteEscape a = SingleQuoteEscape b -> a = b.
Proof.
  intros H. apply escape_newlines_inj. by rewrite H.
Qed.

(** X11. Escaping loses nothing: two values with the same escaped form are
    the same value, and two entries written under the same setting of
    [EscapeNewlines] have the same text for their value only when the stored
    values are the same. *)
Theorem escaping_injective :
  (forall a b : string, SingleQuoteEscape a = SingleQuoteEscape b -> a = b)
  /\ (forall (e1 e2 : Env) (k1 k2 : string),
         EscapeNewlines e1 = EscapeNewlines e2 ->
         entryValue e1 k1 = entryValue e2 k2 ->
         index (env e1) k1 = index (env e2) k2).
Proof.
  split; [apply SingleQuoteEscape_inj|].
  intros e1 e2 k1 k2 Hflag. unfold entryValue. rewrite Hflag.
  destruct (EscapeNewlines e2).
  - apply escape_newlines_inj.
  - apply SingleQuoteEscape_inj.
Qed.

(** ** The empty text *)

Lemma entryLine_nonempty (e : Env) (prefix k : string) : entryLine e prefix k <> "".
Proof.
  intros H. apply (f_equal String.length) in H.
  unfold entryLine in H. rewrite !length_append in H. simpl in H. lia.
Qed.

Lemma Join_nonempty (x : string) (rest : list string) (sep : string) :
  x <> "" -> Join (x :: rest) sep <> "".
Proof.
  intros Hx H. apply Hx. destruct rest as [|y rest]; [exact H|].
  change (Join (x :: y :: rest) sep) with (x +:+ sep +:+ Join (y :: rest) sep) in H.
  destruct x; [reflexivity|]. rewrite append_cons in H. discriminate.
Qed.

(** X12. For every prefix and separator, the text of an environment is
    empty exactly when the environment has no variable. *)
Theorem text_empty_iff (e : Env) (prefix separator : string) :
  StringWithPrefixAndSeparator e prefix separator = "" <-> env e = ∅.
Proof.
  unfold StringWithPrefixAndSeparator.
  pose proof (Keys_length e) as Hlen. unfold Len in Hlen.
  split.
  - intros Htext. apply map_size_empty_inv. rewrite <- Hlen.
    destruct (Keys e) as [|k ks]; [reflexivity|].
    exfalso. revert Htext. simpl map. apply Join_nonempty, entryLine_nonempty.
  - intros Hempty. rewrite Hempty, map_size_empty in Hlen.
    destruct (Keys e); [reflexivity|discriminate].
Qed.

(** ** The text determines the content *)

Lemma parseLine_export_entry (k v : string) :
  plainKey k = true ->
  parseLine ("export " +:+ k +:+ "='" +:+ SingleQuoteEscape v +:+ "'") = inr (Some (k, v)).
Proof.
  intros Hk. apply plainKey_inv in Hk as (Hne & Heq & _ & _).
  change (k +:+ "='" +:+ SingleQuoteEscape v +:+ "'")
    with (k +:+ scons "="%char (scons quote (SingleQuoteEscape v +:+ "'"))).
  rewrite !append_cons, append_nil_l.
  unfold parseLine, dropExport. cbn [isBlank stripPrefix].
  change (Ascii.eqb "e" " " || Ascii.eqb "e" "009" || Ascii.eqb "e" "013")%char with false.
  cbn [andb]. rewrite !Ascii.eqb_refl.
  rewrite cutKey_append by exact Heq.
  destruct k as [|c k]; [congruence|].
  rewrite Ascii.eqb_refl, unquote_SingleQuoteEscape. reflexivity.
Qed.

Lemma parseLines_entries_prefix (prefix : string) (e : Env) (ks : list string) (acc : Env) :
  (forall k v, plainKey k = true ->
     parseLine (prefix +:+ k +:+ "='" +:+ SingleQuoteEscape v +:+ "'") = inr (Some (k, v))) ->
  Forall (fun k => plainKey k = true /\ countByte newline (index (env e) k) = 0) ks ->
  parseLines (map (entryLine e prefix) ks) (env acc)
  = inr (env (foldl (fun a k => Set_ a k (GetDefault e k "")) acc ks)).
Proof.
  intros Hline. revert acc. induction ks as [|k ks IH]; intros acc Hall; [reflexivity|].
  apply Forall_cons in Hall as [[Hk Hnl] Hks].
  cbn [map parseLines foldl]. unfold entryLine at 1.
  rewrite entryValue_plain by exact Hnl.
  rewrite Hline by exact Hk.
  change (<[k := index (env e) k]> (env acc)) with (env (Set_ acc k (index (env e) k))).
  rewrite IH by exact Hks.
  replace (GetDefault e k "") with (index (env e) k); [reflexivity|].
  unfold GetDefault, index. destruct (env e !! k); reflexivity.
Qed.

(** The map of an environment with plain keys and values without newline
    can be read off either of its texts. *)
Lemma parseLines_text (prefix : string) (e : Env) :
  countByte newline prefix = 0 ->
  (forall k v, plainKey k = true ->
     parseLine (prefix +:+ k +:+ "='" +:+ SingleQuoteEscape v +:+ "'") = inr (Some (k, v))) ->
  (forall k v, env e !! k = Some v -> plainKey k = true /\ contains newline v = false) ->
  parseLines (splitLines (StringWithPrefixAndSeparator e prefix (scons newline ""))) ∅
  = inr (env e).
Proof.
  intros Hprefix Hline Hplain.
  assert (Hall : Forall (fun k => plainKey k = true
                                  /\ countByte newline (index (env e) k) = 0) (Keys e)).
  { apply Forall_forall. intros k Hk. apply elem_of_Keys in Hk as [v Hv].
    destruct (Hplain k v Hv) as [Hpk Hnl]. split; [exact Hpk|].
    unfold index. rewrite Hv. by apply contains_false. }
  unfold StringWithPrefixAndSeparator.
  destruct (decide (Keys e = [])) as [Hkeys|Hkeys].
  - rewrite Hkeys. simpl. f_equal. symmetry. apply map_size_empty_inv.
    pose proof (Keys_length e) as Hlen. rewrite Hkeys in Hlen. symmetry. exact Hlen.
  - rewrite splitLines_Join.
    + pose proof (parseLines_entries_prefix prefix e (Keys e) emptyEnv Hline Hall) as Hp.
      simpl in Hp. rewrite Hp. f_equal.
      apply map_eq. intros k.
      change (foldl (fun a k => Set_ a k (GetDefault e k "")) emptyEnv (Keys e))
        with (Merge emptyEnv e).
      rewrite lookup_Merge. simpl. rewrite lookup_empty.
      destruct (env e !! k); reflexivity.
    + intros Hnil. apply Hkeys. by apply fmap_nil_inv in Hnil.
    + apply Forall_fmap. eapply Forall_impl; [exact Hall|].
      intros k [Hpk Hnl]. simpl.
      rewrite countByte_entryLine, countByte_entryValue.
      apply plainKey_inv in Hpk as (_ & _ & Hknl & _).
      rewrite Hprefix, Hknl, Hnl. destruct (EscapeNewlines e); reflexivity.
Qed.

(** X13. Among environments with plain keys and values without newline, the
    text determines the content: two environments with the same plain
    format, or with the same export format, have the same variables,
    whatever their names, files and settings of [EscapeNewlines]. *)
Theorem text_determines_content (e1 e2 : Env) :
  (forall k v, env e1 !! k = Some v -> plainKey k = true /\ contains newline v = false) ->
  (forall k v, env e2 !! k = Some v -> plainKey k = true /\ contains newline v = false) ->
  (EnvfileString e1 = EnvfileString e2 -> env e1 = env e2)
  /\ (ExportfileString e1 = ExportfileString e2 -> env e1 = env e2).
Proof.
  intros H1 H2. split; intros Htext.
  - pose proof (parseLines_text "" e1 eq_refl parseLine_entry H1) as Hp1.
    pose proof (parseLines_text "" e2 eq_refl parseLine_entry H2) as Hp2.
    unfold EnvfileString in Htext. rewrite Htext, Hp2 in Hp1. congruence.
  - pose proof (parseLines_text "export " e1 eq_refl parseLine_export_entry H1) as Hp1.
    pose proof (parseLines_text "export " e2 eq_refl parseLine_export_entry H2) as Hp2.
    unfold ExportfileString in Htext. rewrite Htext, Hp2 in Hp1. congruence.
Qed.

Lemma text_determines_content_witness :
  EnvfileString envQuoted = EnvfileString envQuotedCopy
  /\ env envQuoted = env envQuotedCopy.
Proof.
  assert (Hplain : forall e, env e = env envQuoted ->
            forall k v, env e !! k = Some v ->
                        plainKey k = true /\ contains newline v = false).
  { intros e -> k v Hkv.
    assert (Hin : (k, v) ∈ map_to_list (env envQuoted)) by (by apply elem_of_map_to_list).
    vm_compute in Hin.
    repeat (apply elem_of_cons in Hin as [Hin|Hin];
            [injection Hin as -> ->; vm_compute; split; reflexivity|]).
    by apply elem_of_nil in Hin. }
  assert (Htext : EnvfileString envQuoted = EnvfileString envQuotedCopy)
    by (vm_compute; reflexivity).
  split; [exact Htext|].
  assert (H1 := Hplain envQuoted eq_refl).
  assert (H2 : forall k v, env envQuotedCopy !! k = Some v ->
                           plainKey k = true /\ contains newline v = false).
  { apply Hplain. vm_compute. reflexivity. }
  destruct (text_determines_content envQuoted envQuotedCopy H1 H2) as [Hsame _].
  exact (Hsame Htext).
Defined.

(** * Further properties of [Write] *)

(** X14. [Write] is about the backing file only: every call it makes to the
    file system names that file, the calls made before are still on record,
    no other file changes, and no file disappears. *)
Theorem Write_frame (os : OS) (e : Env) (fs : FS) :
  (exists more, calls (snd (Write os e fs)) = calls fs ++ more
                /\ Forall (fun c => callPath c = filename e) more)
  /\ (forall p, p <> filename e -> files (snd (Write os e fs)) !! p = files fs !! p)
  /\ (forall p, is_Some (files fs !! p) -> is_Some (files (snd (Write os e fs)) !! p)).
Proof.
  unfold Write.
  destruct (String.eqb_spec (filename e) "") as [Hp|Hp]; simpl.
  { split; [exists []; split; [symmetry; apply app_nil_r|constructor]|].
    split; [reflexivity|]. intros p Hsome. exact Hsome. }
  unfold os_Create.
  destruct (createError os fs (filename e)) as [err|]; simpl.
  { split; [eexists; split; [reflexivity|repeat constructor]|].
    split; [reflexivity|]. intros p Hsome. exact Hsome. }
  unfold File_WriteString; simpl.
  match goal with
  | |- context [writeError os ?fs1 ?f ?d] => destruct (writeError os fs1 f d) as [[n err]|]
  end; simpl.
  all: split; [eexists; split; [rewrite <- !app_assoc; reflexivity|repeat constructor]|].
  all: split; [intros p Hne; rewrite !lookup_insert_ne by congruence; reflexivity|].
  all: intros p Hsome; destruct (decide (p = filename e)) as [->|Hne];
    [rewrite lookup_insert_eq; eauto|rewrite !lookup_insert_ne by congruence; exact Hsome].
Qed.

(** * Further properties of [ExportBundle] *)









(** * Target resolution *)

(** X17. [NewFromTarget] reads the global file for the target [--global]
    without consulting the validation of names; for any other target it
    validates the name first, and an invalid name gives the validation error
    with the file system untouched, before the root directory is looked up
    and before any file is read; a valid name is read from the file [ENV] of
    its directory under the root. *)
Theorem NewFromTarget_spec
    (VerifyAppName : string -> option error) (MustGetEnv : string -> option string)
    (filepath_Join : list string -> string)
    (parseEnv : string -> string -> FS -> (error + Env) * FS)
    (target : string) (fs : FS) :
  NewFromTarget VerifyAppName MustGetEnv filepath_Join parseEnv target fs
  = (if decide (target = "--global") then
       match MustGetEnv "DOKKU_ROOT" with
       | Some root => Some (parseEnv "global" (filepath_Join [root; "ENV"]) fs)
       | None => None
       end
     else
       match VerifyAppName target with
       | Some err => Some (inl err, fs)
       | None =>
           match MustGetEnv "DOKKU_ROOT" with
           | Some root => Some (parseEnv target (filepath_Join [root; target; "ENV"]) fs)
           | None => None
           end
       end)
  /\ (forall VerifyAppName' : string -> option error,
         NewFromTarget VerifyAppName' MustGetEnv filepath_Join parseEnv "--global" fs
         = NewFromTarget VerifyAppName MustGetEnv filepath_Join parseEnv "--global" fs)
  /\ (forall err MustGetEnv' filepath_Join' parseEnv',
         target <> "--global" -> VerifyAppName target = Some err ->
         NewFromTarget VerifyAppName MustGetEnv' filepath_Join' parseEnv' target fs
         = Some (inl err, fs)).
Proof.
  split; [|split].
  - unfold NewFromTarget, LoadGlobal, LoadApp, getGlobalFile, getAppFile.
    destruct (String.eqb_spec target "--global") as [Ht|Ht].
    + rewrite decide_True by exact Ht. destruct (MustGetEnv "DOKKU_ROOT"); reflexivity.
    + rewrite decide_False by exact Ht.
      destruct (VerifyAppName target); [reflexivity|].
      destruct (MustGetEnv "DOKKU_ROOT"); reflexivity.
  - intros V'. reflexivity.
  - intros err M' J' P' Ht Herr.
    unfold NewFromTarget, LoadApp, getAppFile.
    destruct (String.eqb_spec target "--global") as [Heq|_]; [contradiction|].
    rewrite Herr. reflexivity.
Qed.

(** * [Merge] with [Set] and [Unset] *)

(** X18. Setting a variable in the result of a merge is merging with the
    variable set in the other, and removing a key from the result of a
    merge is merging after the key was removed on both sides. *)
Theorem Merge_Set_Unset (e other : Env) (key value : string) :
  Set_ (Merge e other) key value = Merge e (Set_ other key value)
  /\ Unset (Merge e other) key = Merge (Unset e key) (Unset other key).
Proof.
  rewrite !Merge_eq. unfold Set_, Unset; simpl. split; f_equal.
  - apply insert_union_l.
  - apply delete_union.
Qed.
